(** * CERN-beamline: a charged particle in a uniform magnetic field

    Shallow embedding of [src/script.js]: the closed-form trajectory
    ([updateParticle]), the bounded trail array, the animation tick
    ([animate]) with the camera follow geometry, and the slider, checkbox
    and button handlers.

    Numbers.  A JavaScript number is modelled by [jsnum]: an exact real,
    plus or minus infinity, or NaN.  Arithmetic on finite values is exact
    (rounding and overflow are abstracted away); a division by zero and the
    operations on infinities and NaN follow IEEE 754.  The sign of a zero is
    not tracked: the only quotient of the script that can have a zero
    divisor, [charge * B / mass], goes straight into [Math.abs], and [r] is
    only computed when [omega] is not zero.  Slider values, the frame
    clock's deltas and hence the simulation time are finite, so they are
    typed [R]; what is computed from them is a [jsnum].

    Rounding.  Where a property depends on how the operations round (the
    gyroradius equation), the computation is embedded a second time with
    every operation followed by a rounding function [fl], and the property
    is proved for every [fl] of relative error at most [u]: the standard
    model of floating-point arithmetic, which binary64 satisfies away from
    overflow and underflow.  Constants that are doubles in the script and
    irrational in exact arithmetic are the doubles: [Math_PI]. *)

From Stdlib Require Import Reals Machin Factorial Lra List Arith ZArith Lia Bool.
Import ListNotations.

Local Open Scope R_scope.

(** ** JavaScript numbers *)

Inductive jsnum : Type :=
| Num (x : R)
| PInf
| NInf
| NaN.

(** The value of [Math.PI]: the double nearest to pi, a rational number
    just below pi. *)
Definition Math_PI : R := 884279719003555 / 281474976710656.

(** The operators and [Math] functions the script applies to numbers. *)
Module JS.

Definition Reqb (a b : R) : bool := if Req_dec_T a b then true else false.
Definition Rltb (a b : R) : bool := if Rlt_dec a b then true else false.

Definition inf (positive : bool) : jsnum := if positive then PInf else NInf.

(** The sign of a number as IEEE multiplication and division see it:
    [Some true] for positive, [Some false] for negative, [None] for zero
    and NaN. *)
Definition sign (a : jsnum) : option bool :=
  match a with
  | Num x => if Reqb x 0 then None else Some (Rltb 0 x)
  | PInf => Some true
  | NInf => Some false
  | NaN => None
  end.

Definition is_nan (a : jsnum) : bool :=
  match a with NaN => true | _ => false end.

(** Unary minus. *)
Definition neg (a : jsnum) : jsnum :=
  match a with
  | Num x => Num (- x)
  | PInf => NInf
  | NInf => PInf
  | NaN => NaN
  end.

(** [Math.abs]. *)
Definition abs (a : jsnum) : jsnum :=
  match a with
  | Num x => Num (Rabs x)
  | PInf | NInf => PInf
  | NaN => NaN
  end.

(** [a + b]. *)
Definition add (a b : jsnum) : jsnum :=
  match a, b with
  | NaN, _ | _, NaN => NaN
  | Num x, Num y => Num (x + y)
  | PInf, NInf | NInf, PInf => NaN
  | PInf, _ | _, PInf => PInf
  | NInf, _ | _, NInf => NInf
  end.

(** [a - b]. *)
Definition sub (a b : jsnum) : jsnum := add a (neg b).

(** [a * b]: zero times infinity is NaN. *)
Definition mul (a b : jsnum) : jsnum :=
  match a, b with
  | Num x, Num y => Num (x * y)
  | _, _ =>
      if is_nan a || is_nan b then NaN
      else match sign a, sign b with
           | Some sa, Some sb => inf (eqb sa sb)
           | _, _ => NaN
           end
  end.

(** [a / b]: a finite nonzero number over zero is an infinity (of the
    sign of [a], the zero divisor counting as +0), zero over zero is NaN, a
    finite number over an infinity is zero. *)
Definition div (a b : jsnum) : jsnum :=
  match a, b with
  | NaN, _ | _, NaN => NaN
  | Num x, Num y =>
      if Reqb y 0
      then match sign a with Some sa => inf sa | None => NaN end
      else Num (x / y)
  | Num _, _ => Num 0
  | _, Num y => if Reqb y 0 then a else if Rltb 0 y then a else neg a
  | _, _ => NaN
  end.

(** [Math.sin], [Math.cos], [Math.tan]: NaN outside the finite numbers. *)
Definition sin (a : jsnum) : jsnum :=
  match a with Num x => Num (Rtrigo_def.sin x) | _ => NaN end.

Definition cos (a : jsnum) : jsnum :=
  match a with Num x => Num (Rtrigo_def.cos x) | _ => NaN end.

Definition tan (a : jsnum) : jsnum :=
  match a with Num x => Num (Rtrigo1.tan x) | _ => NaN end.

(** [Math.sqrt]: NaN below zero. *)
Definition sqrt (a : jsnum) : jsnum :=
  match a with
  | Num x => if Rltb x 0 then NaN else Num (R_sqrt.sqrt x)
  | PInf => PInf
  | _ => NaN
  end.

(** Strict equality [a === b] on numbers: NaN equals nothing. *)
Definition seq (a b : jsnum) : bool :=
  match a, b with
  | Num x, Num y => Reqb x y
  | PInf, PInf | NInf, NInf => true
  | _, _ => false
  end.

(** [Math.PI]. *)
Definition PI : jsnum := Num Math_PI.

End JS.

(** ** The part of three.js the script uses *)

Module THREE.

Record Vector3 : Type := vec3 { x : jsnum; y : jsnum; z : jsnum }.

(** [v.set(x, y, z)]: overwrites the three components. *)
Definition set (_ : Vector3) (x' y' z' : jsnum) : Vector3 := vec3 x' y' z'.

(** [v.copy(w)]: [v] takes the components of [w]. *)
Definition copy (_ w : Vector3) : Vector3 := vec3 (x w) (y w) (z w).

(** [v.add(w)]: componentwise [this.x += w.x] and so on. *)
Definition add (v w : Vector3) : Vector3 :=
  vec3 (JS.add (x v) (x w)) (JS.add (y v) (y w)) (JS.add (z v) (z w)).

(** [v.clone()]: a new vector with the same components. *)
Definition clone (v : Vector3) : Vector3 := vec3 (x v) (y v) (z v).

(** [THREE.Math.degToRad(degrees)] is [degrees * (Math.PI / 180)]. *)
Definition degToRad (degrees : jsnum) : jsnum :=
  JS.mul degrees (JS.div JS.PI (Num 180)).

End THREE.

(** ** Simulation state *)

(** [params] (lines 39-51); [reset] is the function [reset] below. *)
Record Params : Type := mkParams {
  mass : R;
  charge : R;
  B : R;
  v_perp : R;
  v_parallel : R;
  speed : R;
  followCamera : bool
}.

(** The mutable globals of the script.  [camera_lookAt] records the target
    of the last [camera.lookAt] call, [trail_geometry] the points last given
    to [trail.geometry.setFromPoints]. *)
Record State : Type := mkState {
  t : R;
  params : Params;
  trailPositions : list THREE.Vector3;
  particle_position : THREE.Vector3;
  camera_position : THREE.Vector3;
  camera_lookAt : THREE.Vector3;
  controls_target : THREE.Vector3;
  trail_geometry : list THREE.Vector3
}.

Definition maxTrailPoints : nat := 1000.

(** Line 59. *)
Definition fixedCameraOffset : THREE.Vector3 :=
  THREE.vec3 (Num (-10)) (JS.mul (Num 10) (JS.tan (THREE.degToRad (Num 20)))) (Num 0).

Definition origin : THREE.Vector3 := THREE.vec3 (Num 0) (Num 0) (Num 0).

(** The state once the top-level statements up to line 59 have run. *)
Definition init : State :=
  {| t := 0;
     params := mkParams 1 1 1 1 1 1 false;
     trailPositions := [];
     particle_position := origin;
     camera_position :=
       THREE.vec3 (Num (-10)) (JS.mul (Num 10) (JS.tan (THREE.degToRad (Num 20)))) (Num 10);
     camera_lookAt := origin;
     controls_target := origin;
     trail_geometry := [] |}.

(** ** Trajectory (lines 63-73) *)

(** Line 63. *)
Definition omega (p : Params) : jsnum :=
  JS.abs (JS.div (JS.mul (Num (charge p)) (Num (B p))) (Num (mass p))).

(** The guard of line 64. *)
Definition degenerate (p : Params) : bool :=
  JS.seq (omega p) (Num 0) || JS.seq (Num (v_perp p)) (Num 0).

(** Line 67. *)
Definition gyroradius (p : Params) : jsnum :=
  JS.div (Num (v_perp p)) (omega p).

(** The vector that lines 64-73 store in [particle.position] at
    simulation time [tau]. *)
Definition position_at (p : Params) (tau : R) (old : THREE.Vector3) : THREE.Vector3 :=
  if degenerate p then
    THREE.set old (JS.mul (Num (v_perp p)) (Num tau))
                  (Num 0)
                  (JS.mul (Num (v_parallel p)) (Num tau))
  else
    let r := gyroradius p in
    THREE.set old
      (JS.mul r (JS.sin (JS.mul (omega p) (Num tau))))
      (JS.mul (JS.neg r) (JS.sub (Num 1) (JS.cos (JS.mul (omega p) (Num tau)))))
      (JS.mul (Num (v_parallel p)) (Num tau)).

(** ** Trail array (lines 74-75) *)

(** [trailPositions.push(p)] followed by one [shift()] when the length
    is then above [maxTrailPoints]; [shift] drops the first element. *)
Definition trail_push {A : Type} (p : A) (trail : list A) : list A :=
  let pushed := trail ++ [p] in
  if (maxTrailPoints <? length pushed)%nat then tl pushed else pushed.

(** Pushing a sequence of points, oldest first. *)
Definition trail_push_all {A : Type} (ps : list A) (trail : list A) : list A :=
  fold_left (fun buf p => trail_push p buf) ps trail.

(** ** The functions of the script *)

(** [updateParticle] (lines 62-77). *)
Definition updateParticle (s : State) : State :=
  let pos := position_at (params s) (t s) (particle_position s) in
  let trail := trail_push (THREE.clone pos) (trailPositions s) in
  {| t := t s;
     params := params s;
     trailPositions := trail;
     particle_position := pos;
     camera_position := camera_position s;
     camera_lookAt := camera_lookAt s;
     controls_target := controls_target s;
     trail_geometry := trail |}.

(** The follow block of [animate] (lines 87-95) in exact arithmetic.
    [controls.update()] is taken with no pointer gesture pending: it then
    re-derives the camera position from its offset to the target and looks
    at the target again, which in exact arithmetic changes neither.
    [follow_with] below leaves what [controls.update()] returns open. *)
Definition follow (s : State) : State :=
  if followCamera (params s) then
    {| t := t s;
       params := params s;
       trailPositions := trailPositions s;
       particle_position := particle_position s;
       camera_position :=
         THREE.add (THREE.copy (camera_position s) (particle_position s))
                   fixedCameraOffset;
       camera_lookAt := particle_position s;
       controls_target := THREE.copy (controls_target s) (particle_position s);
       trail_geometry := trail_geometry s |}
  else s.

(** Line 83: [t += params.speed * delta]. *)
Definition advance (delta : R) (s : State) : State :=
  {| t := t s + speed (params s) * delta;
     params := params s;
     trailPositions := trailPositions s;
     particle_position := particle_position s;
     camera_position := camera_position s;
     camera_lookAt := camera_lookAt s;
     controls_target := controls_target s;
     trail_geometry := trail_geometry s |}.

(** One call of [animate] (lines 80-98), [delta] being what
    [clock.getDelta()] returns. *)
Definition animate (delta : R) (s : State) : State :=
  follow (updateParticle (advance delta s)).

(** The body shared by [params.reset] (lines 47-50) and the reset branch of
    a slider listener (lines 112-113): [t = 0; trailPositions.length = 0]. *)
Definition clear (s : State) : State :=
  {| t := 0;
     params := params s;
     trailPositions := [];
     particle_position := particle_position s;
     camera_position := camera_position s;
     camera_lookAt := camera_lookAt s;
     controls_target := controls_target s;
     trail_geometry := trail_geometry s |}.

(** [params.reset()]. *)
Definition reset (s : State) : State := clear s.

(** The property names the sliders are bound to. *)
Inductive ParamName : Type :=
| Pmass | Pcharge | PB | Pv_perp | Pv_parallel | Pspeed.

(** [params[paramName] = value]. *)
Definition set_param (name : ParamName) (value : R) (p : Params) : Params :=
  match name with
  | Pmass => mkParams value (charge p) (B p) (v_perp p) (v_parallel p) (speed p) (followCamera p)
  | Pcharge => mkParams (mass p) value (B p) (v_perp p) (v_parallel p) (speed p) (followCamera p)
  | PB => mkParams (mass p) (charge p) value (v_perp p) (v_parallel p) (speed p) (followCamera p)
  | Pv_perp => mkParams (mass p) (charge p) (B p) value (v_parallel p) (speed p) (followCamera p)
  | Pv_parallel => mkParams (mass p) (charge p) (B p) (v_perp p) value (speed p) (followCamera p)
  | Pspeed => mkParams (mass p) (charge p) (B p) (v_perp p) (v_parallel p) value (followCamera p)
  end.

Definition with_params (p : Params) (s : State) : State :=
  {| t := t s;
     params := p;
     trailPositions := trailPositions s;
     particle_position := particle_position s;
     camera_position := camera_position s;
     camera_lookAt := camera_lookAt s;
     controls_target := controls_target s;
     trail_geometry := trail_geometry s |}.

(** The listener that [bindSlider(_, _, paramName, resetOnChange)] installs
    (lines 107-115), run on an input event carrying [value]. *)
Definition slider_listener (paramName : ParamName) (resetOnChange : bool)
    (value : R) (s : State) : State :=
  let s' := with_params (set_param paramName value (params s)) s in
  if resetOnChange then clear s' else s'.

(** The [resetOnChange] argument of each binding (lines 119-124). *)
Definition resetOnChange_of (name : ParamName) : bool :=
  match name with
  | Pmass | Pcharge | PB | Pv_perp | Pv_parallel => true
  | Pspeed => false
  end.

(** An input event on the slider bound to [name]. *)
Definition on_slider_input (name : ParamName) (value : R) (s : State) : State :=
  slider_listener name (resetOnChange_of name) value s.

(** The change listener of the follow checkbox (lines 128-130). *)
Definition on_follow_change (checked : bool) (s : State) : State :=
  with_params
    (mkParams (mass (params s)) (charge (params s)) (B (params s))
              (v_perp (params s)) (v_parallel (params s)) (speed (params s))
              checked)
    s.

(** The click listener of the reset button (lines 134-136). *)
Definition on_reset_click (s : State) : State := reset s.

(** What can happen to the simulation state.  A resize only touches the
    projection and the renderer, which are not part of [State]. *)
Inductive Event : Type :=
| Frame (delta : R)
| SliderInput (name : ParamName) (value : R)
| FollowChange (checked : bool)
| ResetClick
| Resize.

Definition handle (e : Event) (s : State) : State :=
  match e with
  | Frame delta => animate delta s
  | SliderInput name value => on_slider_input name value s
  | FollowChange checked => on_follow_change checked s
  | ResetClick => on_reset_click s
  | Resize => s
  end.

(** The state after a sequence of events, first event first. *)
Definition run (es : list Event) (s : State) : State :=
  fold_left (fun acc e => handle e acc) es s.

(** States the page can be in: [init] followed by any events. *)
Inductive reachable : State -> Prop :=
| reach_init : reachable init
| reach_step e s : reachable s -> reachable (handle e s).

(** ** The follow block with [controls.update()] left open *)

(** Lines 88-93: what the script itself assigns in the follow block,
    before it calls [controls.update()]. *)
Definition follow_assign (s : State) : State :=
  {| t := t s;
     params := params s;
     trailPositions := trailPositions s;
     particle_position := particle_position s;
     camera_position :=
       THREE.add (THREE.copy (camera_position s) (particle_position s))
                 fixedCameraOffset;
     camera_lookAt := particle_position s;
     controls_target := THREE.copy (controls_target s) (particle_position s);
     trail_geometry := trail_geometry s |}.

(** Lines 87-95 with [controls.update()] (three.js [OrbitControls], not
    part of the repository) as a parameter: [update position target] is the
    camera position it leaves, having been called with the camera at
    [position] and the orbit target at [target]; it ends by making the
    camera look at the target. *)
Definition follow_with
    (update : THREE.Vector3 -> THREE.Vector3 -> THREE.Vector3)
    (s : State) : State :=
  if followCamera (params s) then
    let assigned := follow_assign s in
    {| t := t assigned;
       params := params assigned;
       trailPositions := trailPositions assigned;
       particle_position := particle_position assigned;
       camera_position :=
         update (camera_position assigned) (controls_target assigned);
       camera_lookAt := controls_target assigned;
       controls_target := controls_target assigned;
       trail_geometry := trail_geometry assigned |}
  else s.

(** One call of [animate] with [controls.update()] as a parameter. *)
Definition animate_with
    (update : THREE.Vector3 -> THREE.Vector3 -> THREE.Vector3)
    (delta : R) (s : State) : State :=
  follow_with update (updateParticle (advance delta s)).

(** An [update] that moves the camera off in z by 10 cos(Math.PI / 2).
    The round trip of [OrbitControls] through spherical coordinates does
    this for a camera offset with x = -10 and z = 0: the azimuth
    [Math.atan2(-10, 0)] is the double [-Math.PI / 2], whose cosine is not
    zero. *)
Definition drifting_update (position _ : THREE.Vector3) : THREE.Vector3 :=
  THREE.vec3 (THREE.x position) (THREE.y position)
             (JS.add (THREE.z position) (Num (10 * cos (Math_PI / 2)))).

(** ** The general branch with rounding *)

(** The standard model of floating-point arithmetic: [fl] rounds with
    relative error at most [u]. *)
Definition rounding_model (u : R) (fl : R -> R) : Prop :=
  0 <= u /\ forall x, Rabs (fl x - x) <= u * Rabs x.

(** [fsin] and [fcos], standing for [Math.sin] and [Math.cos], are within
    [u] of the sine and the cosine. *)
Definition trig_model (u : R) (fsin fcos : R -> R) : Prop :=
  forall a, Rabs (fsin a - sin a) <= u /\ Rabs (fcos a - cos a) <= u.

Section Rounded.

Variables fl fsin fcos : R -> R.

(** Line 63, each operation rounded; [Math.abs] is exact. *)
Definition omega_fl (p : Params) : R :=
  Rabs (fl (fl (charge p * B p) / mass p)).

(** Line 67. *)
Definition gyroradius_fl (p : Params) : R :=
  fl (v_perp p / omega_fl p).

(** Line 69: [r * Math.sin(omega * t)]. *)
Definition x_fl (p : Params) (tau : R) : R :=
  fl (gyroradius_fl p * fsin (fl (omega_fl p * tau))).

(** Line 70: [-r * (1 - Math.cos(omega * t))]. *)
Definition y_fl (p : Params) (tau : R) : R :=
  fl (- gyroradius_fl p * fl (1 - fcos (fl (omega_fl p * tau)))).

(** The left-hand side of the gyroradius equation, sqrt(x^2 + (y + r)^2),
    each operation rounded. *)
Definition distance_fl (x y r : R) : R :=
  fl (sqrt (fl (fl (x * x) + fl (fl (y + r) * fl (y + r))))).

End Rounded.

(** No rounding, and a rounding that always errs upwards by half of
    [u]. *)
Definition exact (x : R) : R := x.

Definition rounding_up (u : R) (x : R) : R := x * (1 + u / 2).

(** A neutral particle of mass 0 with perpendicular velocity, one second
    after the start. *)
Definition massless_neutral : State :=
  advance 1 (with_params (mkParams 0 0 1 1 1 1 false) init).

(** ** Quantities and states the properties are stated on *)

(** The left-hand side of the gyroradius equation,
    sqrt(x^2 + (y + r)^2): the distance in the x-y plane from the position
    to the point (0, -r). *)
Definition distance_to_centre (pos : THREE.Vector3) (r : jsnum) : jsnum :=
  JS.sqrt
    (JS.add (JS.mul (THREE.x pos) (THREE.x pos))
            (JS.mul (JS.add (THREE.y pos) r) (JS.add (THREE.y pos) r))).

(** The sliders whose binding passes [resetOnChange = true]. *)
Definition physics_sliders : list ParamName :=
  [Pmass; Pcharge; PB; Pv_perp; Pv_parallel].

(** The state of the concrete scenario: unit mass, charge, field and
    perpendicular velocity, no parallel velocity, at time [Math.PI]. *)
Definition half_turn : State :=
  {| t := Math_PI;
     params := mkParams 1 1 1 1 0 1 false;
     trailPositions := [];
     particle_position := origin;
     camera_position := origin;
     camera_lookAt := origin;
     controls_target := origin;
     trail_geometry := [] |}.

(** A particle gyrating the other way: negative perpendicular velocity. *)
Definition backwards : State :=
  with_params (mkParams 1 1 1 (-1) 0 1 false) init.

(** Time running backwards: a negative speed. *)
Definition rewinding : State :=
  with_params (mkParams 1 1 1 1 1 (-1) false) init.

(** The particle at (5, 0, 0) with follow mode on. *)
Definition following : State :=
  {| t := 0;
     params := mkParams 1 1 1 1 1 1 true;
     trailPositions := [];
     particle_position := THREE.vec3 (Num 5) (Num 0) (Num 0);
     camera_position := origin;
     camera_lookAt := origin;
     controls_target := origin;
     trail_geometry := [] |}.

(** ** Runs of frames *)

(** The events of successive frames, given what [clock.getDelta()]
    returns in each. *)
Definition frames (ds : list R) : list Event := map Frame ds.

(** The clock time a run of frames spans. *)
Definition elapsed (ds : list R) : R := fold_right Rplus 0 ds.

(** The simulation times at which successive frames call
    [updateParticle]: line 83 applied once per frame, from time [t0] at
    speed [sp]. *)
Fixpoint frame_times (t0 sp : R) (ds : list R) : list R :=
  match ds with
  | [] => []
  | d :: ds' => (t0 + sp * d) :: frame_times (t0 + sp * d) sp ds'
  end.

(** ** Viewport (lines 3-8 and 138-157) *)

(** The two properties of [sceneContainer] the script reads, in CSS
    pixels. *)
Record Container : Type := mkContainer {
  clientWidth : nat;
  clientHeight : nat
}.

(** The globals [width] and [height], [camera.aspect], and the size last
    given to [renderer.setSize]. *)
Record Viewport : Type := mkViewport {
  width : jsnum;
  height : jsnum;
  camera_aspect : jsnum;
  renderer_size : jsnum * jsnum
}.

(** Lines 4-8: the viewport the top-level statements set up. *)
Definition init_viewport (c : Container) : Viewport :=
  let w := Num (INR (clientWidth c)) in
  let h := Num (INR (clientHeight c)) in
  {| width := w;
     height := h;
     camera_aspect := JS.div w h;
     renderer_size := (w, h) |}.

(** [onWindowResize] (lines 139-145), the container having size [c]. *)
Definition onWindowResize (c : Container) (_ : Viewport) : Viewport :=
  let w := Num (INR (clientWidth c)) in
  let h := Num (INR (clientHeight c)) in
  {| width := w;
     height := h;
     camera_aspect := JS.div w h;
     renderer_size := (w, h) |}.

(** A DOM element, by identity. *)
Definition Element : Type := nat.

(** The callback of the [ResizeObserver] (lines 150-156), [entries] given
    by their targets. *)
Definition resize_callback (sceneContainer : Element) (c : Container)
    (entries : list Element) (v : Viewport) : Viewport :=
  fold_left
    (fun acc target =>
       if Nat.eqb target sceneContainer then onWindowResize c acc else acc)
    entries v.

(** ** Consistency of the trail *)

(** What every handler keeps: the line drawn is the trail, unless the
    trail was just emptied; the trail was computed with the current
    parameters. *)
Definition consistent (s : State) : Prop :=
  (trailPositions s = [] \/ trailPositions s = trail_geometry s) /\
  (length (trail_geometry s) <= maxTrailPoints)%nat /\
  Forall (fun q => exists tau, q = position_at (params s) tau origin)
         (trailPositions s).

(** * Properties *)

(** ** Numbers *)

Section Numbers.

Lemma Reqb_true (a b : R) : JS.Reqb a b = true <-> a = b.
Proof.
  unfold JS.Reqb. destruct (Req_dec_T a b); split; congruence.
Qed.

Lemma Reqb_false (a b : R) : JS.Reqb a b = false <-> a <> b.
Proof.
  unfold JS.Reqb. destruct (Req_dec_T a b); split; congruence.
Qed.

Lemma Reqb_refl (a : R) : JS.Reqb a a = true.
Proof. now apply Reqb_true. Qed.

Lemma Rltb_true (a b : R) : JS.Rltb a b = true <-> a < b.
Proof.
  unfold JS.Rltb. destruct (Rlt_dec a b); split; congruence.
Qed.

Lemma Rltb_false (a b : R) : JS.Rltb a b = false <-> b <= a.
Proof.
  unfold JS.Rltb. destruct (Rlt_dec a b); split; intros; try congruence; lra.
Qed.

(** [a === 0] holds for exactly one number. *)
Lemma seq_zero (a : jsnum) : JS.seq a (Num 0) = true <-> a = Num 0.
Proof.
  destruct a as [v | | |]; simpl; split; try discriminate.
  - intros H. apply Reqb_true in H. now subst.
  - intros H. injection H as ->. apply Reqb_refl.
Qed.

(** A quotient by a nonzero finite number is the real quotient. *)
Lemma div_finite (a b : R) : b <> 0 -> JS.div (Num a) (Num b) = Num (a / b).
Proof.
  intros Hb. simpl. apply Reqb_false in Hb. now rewrite Hb.
Qed.

End Numbers.

(** ** Constants *)

Section Constants.

Lemma Rabs_le_inv (a b : R) : Rabs a <= b -> - b <= a <= b.
Proof.
  intros H. generalize (Rle_abs a), (Rle_abs (- a)).
  rewrite Rabs_Ropp. lra.
Qed.

Lemma PI_bounds : 3.14159 < PI < 3.1416.
Proof.
  generalize (PI_2_3_7_ineq 2).
  unfold sum_f_R0, tg_alt, PI_2_3_7_tg, Ratan_seq.
  simpl. intros [Hlow Hhigh]. split; lra.
Qed.

Lemma INR_fact (n : nat) : INR (fact n) = IZR (Z.of_nat (fact n)).
Proof. apply INR_IZR_INZ. Qed.

(** The Taylor polynomials that enclose sine and cosine on [0, 1]. *)
Lemma sin_cos_enclosure (a : R) :
  0 <= a -> a <= 1 ->
  (a - a ^ 3 / 6 + a ^ 5 / 120 - a ^ 7 / 5040 <= sin a /\
   sin a <= a - a ^ 3 / 6 + a ^ 5 / 120 - a ^ 7 / 5040 + a ^ 9 / 362880) /\
  (1 - a ^ 2 / 2 + a ^ 4 / 24 - a ^ 6 / 720 <= cos a /\
   cos a <= 1 - a ^ 2 / 2 + a ^ 4 / 24 - a ^ 6 / 720 + a ^ 8 / 40320).
Proof.
  intros Hlow Hhigh. destruct PI_bounds as [Hp _].
  assert (HS : sin_lb a <= sin a <= sin_ub a) by (apply SIN; lra).
  assert (HC : cos_lb a <= cos a <= cos_ub a) by (apply COS; lra).
  unfold sin_lb, sin_ub, sin_approx, sin_term,
         cos_lb, cos_ub, cos_approx, cos_term in HS, HC.
  cbn [sum_f_R0 Nat.mul Nat.add] in HS, HC.
  rewrite !INR_fact in HS, HC.
  change (Z.of_nat (fact 0)) with 1%Z in *.
  change (Z.of_nat (fact 1)) with 1%Z in *.
  change (Z.of_nat (fact 2)) with 2%Z in *.
  change (Z.of_nat (fact 3)) with 6%Z in *.
  change (Z.of_nat (fact 4)) with 24%Z in *.
  change (Z.of_nat (fact 5)) with 120%Z in *.
  change (Z.of_nat (fact 6)) with 720%Z in *.
  change (Z.of_nat (fact 7)) with 5040%Z in *.
  replace (Z.of_nat (fact 8)) with 40320%Z in * by (vm_compute; reflexivity).
  replace (Z.of_nat (fact 9)) with 362880%Z in * by (vm_compute; reflexivity).
  repeat split; lra.
Qed.

(** [Math.PI] is below pi, by less than 1.3e-16. *)
Lemma PI_tight : Math_PI < PI < Math_PI + 13 / 100000000000000000.
Proof.
  generalize (PI_2_3_7_ineq 9).
  unfold sum_f_R0, tg_alt, PI_2_3_7_tg, Ratan_seq, Math_PI.
  simpl. intros [Hlow Hhigh]. split; lra.
Qed.

(** The sine of [Math.PI] is positive and below 1.3e-16. *)
Lemma sin_Math_PI : 0 < sin Math_PI < 13 / 100000000000000000.
Proof.
  destruct PI_tight as [Hlow Hhigh].
  replace Math_PI with (PI - (PI - Math_PI)) by ring.
  rewrite sin_PI_x. split.
  - apply sin_gt_0; unfold Math_PI in *; lra.
  - apply Rlt_trans with (PI - Math_PI); [apply sin_lt_x|]; lra.
Qed.

(** The cosine of [Math.PI] is -1 to within 1e-15. *)
Lemma cos_Math_PI : -1 <= cos Math_PI <= -1 + 1 / 1000000000000000.
Proof.
  destruct PI_tight as [Hlow Hhigh].
  set (e := PI - Math_PI).
  assert (He : 0 < e < 13 / 100000000000000000) by (unfold e; lra).
  replace Math_PI with (- e + PI) by (unfold e; ring).
  rewrite neg_cos, cos_neg.
  destruct (sin_cos_enclosure e) as [_ [Hc _]]; try lra.
  generalize (COS_bound e). intros [_ Hc1].
  assert (He2 : 0 <= e * e <= e) by nra.
  assert (He4 : 0 <= e ^ 4 / 24 - e ^ 6 / 720).
  { replace (e ^ 4 / 24 - e ^ 6 / 720)
      with (e * e * (e * e) * (/ 24 - e * e / 720)) by field.
    assert (0 <= / 24 - e * e / 720) by lra.
    assert (0 <= e * e * (e * e)) by nra. nra. }
  replace (e ^ 2) with (e * e) in Hc by ring.
  split; lra.
Qed.

(** The cosine of [Math.PI / 2] is positive. *)
Lemma cos_half_Math_PI : 0 < cos (Math_PI / 2).
Proof.
  destruct PI_tight as [Hlow Hhigh].
  apply cos_gt_0; unfold Math_PI in *; lra.
Qed.

End Constants.

(** ** Trajectory *)

Section Trajectory.

Variable p : Params.

(** With a nonzero mass [omega] is the real cyclotron frequency. *)
Lemma omega_finite :
  mass p <> 0 -> omega p = Num (Rabs (charge p * B p / mass p)).
Proof.
  intros Hm. unfold omega. cbn [JS.mul]. now rewrite div_finite.
Qed.

(** A zero mass makes [omega] infinite, or NaN when the numerator is zero
    too: never zero. *)
Lemma omega_zero_mass :
  mass p = 0 ->
  omega p = (if JS.Reqb (charge p * B p) 0 then NaN else PInf).
Proof.
  intros Hm. unfold omega. cbn [JS.mul JS.div JS.sign]. rewrite Hm, Reqb_refl.
  destruct (JS.Reqb (charge p * B p) 0); [reflexivity|].
  now destruct (JS.Rltb 0 (charge p * B p)).
Qed.

Lemma degenerate_true :
  degenerate p = true <-> omega p = Num 0 \/ v_perp p = 0.
Proof.
  unfold degenerate. rewrite orb_true_iff, seq_zero. cbn [JS.seq].
  now rewrite Reqb_true.
Qed.

Lemma degenerate_false :
  degenerate p = false <-> omega p <> Num 0 /\ v_perp p <> 0.
Proof.
  unfold degenerate. rewrite orb_false_iff. cbn [JS.seq].
  rewrite Reqb_false. rewrite <- (seq_zero (omega p)).
  now destruct (JS.seq (omega p) (Num 0)); intuition congruence.
Qed.

(** With a nonzero mass, [omega] is zero exactly when the charge or the
    field is. *)
Lemma omega_zero_iff :
  mass p <> 0 -> (omega p = Num 0 <-> charge p = 0 \/ B p = 0).
Proof.
  intros Hm. rewrite omega_finite by assumption. split.
  - intros H. injection H as H.
    assert (H0 : charge p * B p / mass p = 0).
    { destruct (Req_dec_T (charge p * B p / mass p) 0) as [E | E]; [exact E|].
      apply Rabs_no_R0 in E. contradiction. }
    assert (H1 : charge p * B p = 0).
    { replace (charge p * B p) with (charge p * B p / mass p * mass p)
        by (field; assumption).
      rewrite H0. ring. }
    now apply Rmult_integral.
  - intros [H | H]; rewrite H; f_equal;
      unfold Rdiv; rewrite ?Rmult_0_l, ?Rmult_0_r, ?Rmult_0_l;
      apply Rabs_R0.
Qed.

(** The position in the general branch, in real terms, when the mass is
    not zero. *)
Lemma position_general_real (tau : R) (old : THREE.Vector3) :
  mass p <> 0 -> charge p <> 0 -> B p <> 0 -> v_perp p <> 0 ->
  let w := Rabs (charge p * B p / mass p) in
  let r := v_perp p / w in
  w <> 0 /\
  gyroradius p = Num r /\
  position_at p tau old =
    THREE.vec3 (Num (r * sin (w * tau)))
               (Num (- r * (1 - cos (w * tau))))
               (Num (v_parallel p * tau)).
Proof.
  intros Hm Hc HB Hv w r.
  assert (Hw : omega p = Num w) by now apply omega_finite.
  assert (Hw0 : w <> 0).
  { intros E. assert (H : omega p = Num 0) by (rewrite Hw; now f_equal).
    apply omega_zero_iff in H; tauto. }
  assert (Hr : gyroradius p = Num r).
  { unfold gyroradius. rewrite Hw. now apply div_finite. }
  split; [exact Hw0|]. split; [exact Hr|].
  unfold position_at.
  assert (Hd : degenerate p = false).
  { apply degenerate_false. split; [|assumption].
    rewrite Hw. intros E. injection E as E. contradiction. }
  rewrite Hd. cbv zeta. rewrite Hr, Hw. simpl. unfold Rminus. reflexivity.
Qed.

(** What the script does with a zero mass, outside the data model: a
    neutral particle with perpendicular velocity is sent to NaN instead of
    drifting. *)
Lemma position_zero_mass_neutral (tau : R) (old : THREE.Vector3) :
  mass p = 0 -> charge p = 0 -> v_perp p <> 0 ->
  omega p = NaN /\
  THREE.x (position_at p tau old) = NaN /\
  THREE.y (position_at p tau old) = NaN.
Proof.
  intros Hm Hc Hv.
  assert (Hw : omega p = NaN).
  { rewrite omega_zero_mass by assumption.
    rewrite Hc, Rmult_0_l. now rewrite Reqb_refl. }
  split; [exact Hw|]. unfold position_at.
  assert (Hd : degenerate p = false).
  { apply degenerate_false. rewrite Hw. split; [discriminate | assumption]. }
  rewrite Hd. cbv zeta. unfold gyroradius. rewrite Hw. split; reflexivity.
Qed.

End Trajectory.

Section TrajectoryClaims.

Lemma updateParticle_position (s : State) :
  particle_position (updateParticle s) =
  position_at (params s) (t s) (particle_position s).
Proof. reflexivity. Qed.

Lemma Rabs_unit_quotient : Rabs (1 * 1 / 1) = 1.
Proof.
  replace (1 * 1 / 1) with 1 by field. apply Rabs_R1.
Qed.

(** The degenerate branch of [updateParticle]. *)
Lemma position_degenerate (s : State) :
  omega (params s) = Num 0 \/ v_perp (params s) = 0 ->
  particle_position (updateParticle s) =
    THREE.vec3 (Num (v_perp (params s) * t s)) (Num 0)
               (Num (v_parallel (params s) * t s)).
Proof.
  intros H. rewrite updateParticle_position. unfold position_at.
  apply degenerate_true in H. now rewrite H.
Qed.




(** C2, as amended.  When [omega === 0] or [v_perp === 0],
    [updateParticle] puts the particle at (v_perp t, 0, v_parallel t), for
    every time; in particular when the mass is not zero and the charge or
    the field is zero, which then makes [omega] zero. *)
Theorem C2_degenerate_linear_drift (s : State) :
  let p := params s in
  let drift :=
    THREE.vec3 (Num (v_perp p * t s)) (Num 0) (Num (v_parallel p * t s)) in
  (JS.seq (omega p) (Num 0) = true \/ v_perp p = 0 ->
   particle_position (updateParticle s) = drift) /\
  (mass p <> 0 -> charge p = 0 \/ B p = 0 ->
   omega p = Num 0 /\ particle_position (updateParticle s) = drift).
Proof.
  intros p drift. split.
  - intros H. apply position_degenerate. fold p.
    destruct H as [H | H]; [left; now apply seq_zero | now right].
  - intros Hm H. apply (omega_zero_iff p Hm) in H. split; [exact H|].
    apply position_degenerate. now left.
Qed.

(** A neutral particle, a vanishing field, and a particle with no
    perpendicular velocity, two seconds after the start. *)
Lemma C2_degenerate_linear_drift_witness :
  let neutral := advance 2 (with_params (mkParams 1 0 1 3 4 1 false) init) in
  let no_field := advance 2 (with_params (mkParams 1 1 0 3 4 1 false) init) in
  let axial := advance 2 (with_params (mkParams 1 1 1 0 4 1 false) init) in
  particle_position (updateParticle neutral) =
    THREE.vec3 (Num (3 * (0 + 1 * 2))) (Num 0) (Num (4 * (0 + 1 * 2))) /\
  particle_position (updateParticle no_field) =
    THREE.vec3 (Num (3 * (0 + 1 * 2))) (Num 0) (Num (4 * (0 + 1 * 2))) /\
  particle_position (updateParticle axial) =
    THREE.vec3 (Num (0 * (0 + 1 * 2))) (Num 0) (Num (4 * (0 + 1 * 2))).
Proof.
  intros neutral no_field axial. repeat split.
  - destruct (C2_degenerate_linear_drift neutral) as [_ H].
    apply H; simpl; [lra | left; reflexivity].
  - destruct (C2_degenerate_linear_drift no_field) as [_ H].
    apply H; simpl; [lra | right; reflexivity].
  - destruct (C2_degenerate_linear_drift axial) as [H _].
    apply H. right. reflexivity.
Defined.

(** C2 as stated fails: with mass 0 a zero charge does not make [omega]
    zero but NaN; the guard is false, and a particle with perpendicular
    velocity is sent to NaN instead of drifting. *)
Lemma C2_counterexample :
  charge (params massless_neutral) = 0 /\
  omega (params massless_neutral) = NaN /\
  JS.seq (omega (params massless_neutral)) (Num 0) = false /\
  THREE.x (particle_position (updateParticle massless_neutral)) = NaN /\
  particle_position (updateParticle massless_neutral) <>
    THREE.vec3
      (Num (v_perp (params massless_neutral) * t massless_neutral))
      (Num 0)
      (Num (v_parallel (params massless_neutral) * t massless_neutral)).
Proof.
  destruct (position_zero_mass_neutral (params massless_neutral)
              (t massless_neutral) (particle_position massless_neutral))
    as (Hw & Hx & _); try reflexivity; try (simpl; lra).
  rewrite updateParticle_position.
  repeat split; try assumption.
  - now rewrite Hw.
  - intros E. rewrite E in Hx. discriminate Hx.
Qed.

(** C7.  In both branches the z component of the position
    [updateParticle] computes is [v_parallel * t], whatever the other
    parameters are; a frame puts the particle at [v_parallel] times the
    advanced time. *)
Theorem C7_axial_motion_decoupled (s : State) (delta : R) :
  THREE.z (particle_position (updateParticle s)) =
    Num (v_parallel (params s) * t s) /\
  THREE.z (particle_position (animate delta s)) =
    Num (v_parallel (params s) * (t s + speed (params s) * delta)).
Proof.
  split.
  - rewrite updateParticle_position. unfold position_at.
    now destruct (degenerate (params s)).
  - unfold animate, follow.
    destruct (followCamera (params (updateParticle (advance delta s))));
      cbn [particle_position]; rewrite updateParticle_position;
      unfold position_at;
      now destruct (degenerate (params (advance delta s))).
Qed.

(** C8.  With [v_perp] zero the x and y components of the computed
    position are zero at every time, whatever mass, charge and field are. *)
Theorem C8_pure_axial_drift (s : State) :
  v_perp (params s) = 0 ->
  THREE.x (particle_position (updateParticle s)) = Num 0 /\
  THREE.y (particle_position (updateParticle s)) = Num 0.
Proof.
  intros Hv.
  rewrite (position_degenerate s) by (right; exact Hv).
  cbn [THREE.x THREE.y]. rewrite Hv. split; [f_equal; ring | reflexivity].
Qed.

(** No perpendicular velocity, but charge, field and parallel velocity. *)
Lemma C8_pure_axial_drift_witness :
  let axial := advance 2 (with_params (mkParams 1 1 1 0 4 1 false) init) in
  THREE.x (particle_position (updateParticle axial)) = Num 0 /\
  THREE.y (particle_position (updateParticle axial)) = Num 0.
Proof.
  intros axial. apply (C8_pure_axial_drift axial). reflexivity.
Defined.

End TrajectoryClaims.

(** ** The circle of gyration *)

Section Gyration.

Section RoundingAnalysis.

Variable u : R.
Variables fl fsin fcos : R -> R.
Hypothesis Hfl : rounding_model u fl.
Hypothesis Htrig : trig_model u fsin fcos.
Hypothesis Hu : u <= / 1000.

Lemma u_nonneg : 0 <= u.
Proof. exact (proj1 Hfl). Qed.

Lemma fl_within (z b : R) : Rabs z <= b -> Rabs (fl z - z) <= u * b.
Proof.
  intros Hz. destruct Hfl as [H0 H]. specialize (H z).
  apply Rle_trans with (u * Rabs z); [exact H|].
  apply Rmult_le_compat_l; assumption.
Qed.

Lemma fl_nonneg (z : R) : 0 <= z -> z * (1 - u) <= fl z <= z * (1 + u).
Proof.
  intros Hz. destruct Hfl as [H0 H]. specialize (H z).
  rewrite (Rabs_right z) in H by lra.
  apply Rabs_le_inv in H. split; lra.
Qed.

Lemma fl_negative (z : R) : z < 0 -> fl z < 0.
Proof.
  intros Hz. destruct Hfl as [H0 H]. specialize (H z).
  rewrite (Rabs_left z) in H by lra.
  apply Rabs_le_inv in H. nra.
Qed.

(** The rounded x is near r sin a. *)
Lemma x_near (r a : R) :
  Rabs (fl (r * fsin a) - r * sin a) <= 3 * u * Rabs r.
Proof.
  assert (H0 := u_nonneg).
  destruct (Htrig a) as [Hs _].
  assert (Hsin := SIN_bound a).
  assert (Hsb : Rabs (fsin a) <= 1 + u).
  { apply Rabs_le. apply Rabs_le_inv in Hs. lra. }
  assert (Hprod : Rabs (r * fsin a) <= Rabs r * (1 + u)).
  { rewrite Rabs_mult. apply Rmult_le_compat_l; [apply Rabs_pos | exact Hsb]. }
  assert (H1 := fl_within _ _ Hprod).
  assert (H2 : Rabs (r * fsin a - r * sin a) <= Rabs r * u).
  { replace (r * fsin a - r * sin a) with (r * (fsin a - sin a)) by ring.
    rewrite Rabs_mult. apply Rmult_le_compat_l; [apply Rabs_pos | exact Hs]. }
  replace (fl (r * fsin a) - r * sin a)
    with ((fl (r * fsin a) - r * fsin a) + (r * fsin a - r * sin a)) by ring.
  eapply Rle_trans; [apply Rabs_triang|].
  assert (Hr := Rabs_pos r).
  assert (Hur : 0 <= u * Rabs r) by nra.
  assert (Huu : u * (u * Rabs r) <= / 1000 * (u * Rabs r)) by nra.
  nra.
Qed.

(** The rounded y + r is near r cos a. *)
Lemma w_near (r a : R) :
  Rabs (fl (fl (- r * fl (1 - fcos a)) + r) - r * cos a) <= 7 * u * Rabs r.
Proof.
  assert (H0 := u_nonneg).
  destruct (Htrig a) as [_ Hc].
  assert (Hcos := COS_bound a).
  assert (Hr := Rabs_pos r).
  set (c := fcos a) in *.
  assert (Hc' : - u <= c - cos a <= u) by (apply Rabs_le_inv; exact Hc).
  assert (H1c : Rabs (1 - c) <= 2 + u) by (apply Rabs_le; lra).
  assert (Hm := fl_within _ _ H1c).
  set (m := fl (1 - c)) in *.
  assert (Hm' : - (u * (2 + u)) <= m - (1 - c) <= u * (2 + u))
    by (apply Rabs_le_inv; exact Hm).
  assert (Hur : 0 <= u * Rabs r) by nra.
  assert (Huu : u * (u * Rabs r) <= / 1000 * (u * Rabs r)) by nra.
  assert (Hmb : Rabs m <= 201 / 100) by (apply Rabs_le; nra).
  assert (Hrm : Rabs (- r * m) <= Rabs r * (201 / 100)).
  { rewrite Rabs_mult, Rabs_Ropp.
    apply Rmult_le_compat_l; [apply Rabs_pos | exact Hmb]. }
  assert (Hy := fl_within _ _ Hrm).
  set (y := fl (- r * m)) in *.
  assert (Hy' : Rabs (y + r - r * cos a) <= 11 / 2 * u * Rabs r).
  { replace (y + r - r * cos a)
      with ((y - - r * m) + r * ((1 - c) - m) + r * (c - cos a)) by ring.
    eapply Rle_trans; [apply Rabs_triang|].
    eapply Rle_trans; [apply Rplus_le_compat_r, Rabs_triang|].
    rewrite !Rabs_mult.
    assert (Ha : Rabs (1 - c - m) <= u * (2 + u)).
    { apply Rabs_le. lra. }
    assert (Hb : Rabs r * Rabs (1 - c - m) <= Rabs r * (u * (2 + u)))
      by (apply Rmult_le_compat_l; assumption).
    assert (Hd : Rabs r * Rabs (c - cos a) <= Rabs r * u)
      by (apply Rmult_le_compat_l; assumption).
    nra. }
  assert (Hyr : Rabs (y + r) <= Rabs r * (101 / 100)).
  { replace (y + r) with ((y + r - r * cos a) + r * cos a) by ring.
    eapply Rle_trans; [apply Rabs_triang|]. rewrite Rabs_mult.
    assert (Hcb : Rabs (cos a) <= 1) by (apply Rabs_le; lra).
    assert (Rabs r * Rabs (cos a) <= Rabs r * 1)
      by (apply Rmult_le_compat_l; assumption).
    nra. }
  assert (Hw := fl_within _ _ Hyr).
  replace (fl (y + r) - r * cos a)
    with ((fl (y + r) - (y + r)) + (y + r - r * cos a)) by ring.
  eapply Rle_trans; [apply Rabs_triang|]. nra.
Qed.

(** The sum of the squares is near r^2. *)
Lemma squares_near (r a x w : R) :
  Rabs (x - r * sin a) <= 3 * u * Rabs r ->
  Rabs (w - r * cos a) <= 7 * u * Rabs r ->
  Rabs r * Rabs r * (1 - 21 * u) <= x * x + w * w <=
  Rabs r * Rabs r * (1 + 21 * u).
Proof.
  intros Hx Hw. assert (H0 := u_nonneg).
  apply Rabs_le_inv in Hx, Hw.
  assert (Hr := Rabs_pos r).
  assert (Hr2 : Rabs r * Rabs r = r * r).
  { unfold Rabs. destruct (Rcase_abs r); ring. }
  assert (Hsc := sin2_cos2 a). unfold Rsqr in Hsc.
  assert (Hs := SIN_bound a). assert (Hc := COS_bound a).
  set (ex := x - r * sin a) in *. set (ew := w - r * cos a) in *.
  replace x with (r * sin a + ex) by (unfold ex; ring).
  replace w with (r * cos a + ew) by (unfold ew; ring).
  assert (E : (r * sin a + ex) * (r * sin a + ex) +
              (r * cos a + ew) * (r * cos a + ew) =
              r * r * (sin a * sin a + cos a * cos a) +
              2 * (r * sin a * ex + r * cos a * ew) + ex * ex + ew * ew)
    by ring.
  rewrite E, Hsc, <- Hr2.
  set (rho := Rabs r) in *.
  assert (Hrs : - rho <= r * sin a <= rho).
  { apply Rabs_le_inv. rewrite Rabs_mult. fold rho.
    assert (Rabs (sin a) <= 1) by (apply Rabs_le; lra).
    nra. }
  assert (Hrc : - rho <= r * cos a <= rho).
  { apply Rabs_le_inv. rewrite Rabs_mult. fold rho.
    assert (Rabs (cos a) <= 1) by (apply Rabs_le; lra).
    nra. }
  assert (P1 : - (rho * (3 * u * rho)) <= r * sin a * ex <= rho * (3 * u * rho))
    by nra.
  assert (P2 : - (rho * (7 * u * rho)) <= r * cos a * ew <= rho * (7 * u * rho))
    by nra.
  assert (P3 : 0 <= ex * ex <= (3 * u * rho) * (3 * u * rho)) by nra.
  assert (P4 : 0 <= ew * ew <= (7 * u * rho) * (7 * u * rho)) by nra.
  assert (Hrr : 0 <= rho * rho) by nra.
  assert (Hurr : 0 <= u * (rho * rho)) by nra.
  assert (Huu : u * u * (rho * rho) <= / 1000 * (u * (rho * rho))) by nra.
  split; nra.
Qed.

(** The rounded square root of the rounded sum is near |r|. *)
Lemma root_near (r x w : R) :
  Rabs r * Rabs r * (1 - 21 * u) <= x * x + w * w <=
  Rabs r * Rabs r * (1 + 21 * u) ->
  Rabs (fl (sqrt (fl (fl (x * x) + fl (w * w)))) - Rabs r) <= 14 * u * Rabs r.
Proof.
  intros [Hlo Hhi]. assert (H0 := u_nonneg).
  assert (Hr := Rabs_pos r). set (rho := Rabs r) in *.
  assert (Hx2 : 0 <= x * x) by nra. assert (Hw2 : 0 <= w * w) by nra.
  assert (Q1 := fl_nonneg _ Hx2). assert (Q2 := fl_nonneg _ Hw2).
  assert (Hq : 0 <= fl (x * x) + fl (w * w)) by nra.
  assert (Q3 := fl_nonneg _ Hq).
  set (sm := fl (fl (x * x) + fl (w * w))) in *.
  assert (Hrr : 0 <= rho * rho) by nra.
  assert (Hurr : 0 <= u * (rho * rho)) by nra.
  assert (Huu : u * u * (rho * rho) <= / 1000 * (u * (rho * rho))) by nra.
  assert (Huuu : 0 <= u * u * u * (rho * rho) <= / 1000 * (u * u * (rho * rho)))
    by nra.
  assert (Hsum : rho * rho * (1 - 24 * u) <= sm <= rho * rho * (1 + 24 * u)).
  { assert (S1 : (x * x + w * w) * (1 - u) <= fl (x * x) + fl (w * w) <=
                 (x * x + w * w) * (1 + u)) by nra.
    assert (S2 : (x * x + w * w) * (1 - u) * (1 - u) <= sm) by nra.
    assert (S3 : sm <= (x * x + w * w) * (1 + u) * (1 + u)) by nra.
    split.
    - apply Rle_trans with (rho * rho * (1 - 21 * u) * (1 - u) * (1 - u));
        [nra|].
      eapply Rle_trans; [|exact S2]. nra.
    - eapply Rle_trans; [exact S3|].
      apply Rle_trans with (rho * rho * (1 + 21 * u) * (1 + u) * (1 + u)); nra. }
  assert (Hsm0 : 0 <= sm) by nra.
  assert (Hsq : rho * (1 - 13 * u) <= sqrt sm <= rho * (1 + 12 * u)).
  { split.
    - rewrite <- (sqrt_square (rho * (1 - 13 * u))) by nra.
      apply sqrt_le_1_alt. nra.
    - rewrite <- (sqrt_square (rho * (1 + 12 * u))) by nra.
      apply sqrt_le_1_alt. nra. }
  assert (Hs0 := sqrt_pos sm).
  assert (Q4 := fl_nonneg _ Hs0).
  apply Rabs_le. split; nra.
Qed.

Lemma distance_fl_near (p : Params) (tau : R) :
  Rabs (distance_fl fl (x_fl fl fsin p tau) (y_fl fl fcos p tau)
                    (gyroradius_fl fl p) -
        Rabs (gyroradius_fl fl p)) <=
  14 * u * Rabs (gyroradius_fl fl p).
Proof.
  unfold distance_fl, x_fl, y_fl.
  apply root_near.
  apply squares_near with (a := fl (omega_fl fl p * tau)).
  - apply x_near.
  - apply w_near.
Qed.

Lemma gyroradius_fl_negative (p : Params) :
  v_perp p < 0 -> omega_fl fl p <> 0 -> gyroradius_fl fl p < 0.
Proof.
  intros Hv Hw. unfold gyroradius_fl. apply fl_negative.
  assert (Hpos : 0 < omega_fl fl p).
  { unfold omega_fl in *. generalize (Rabs_pos (fl (fl (charge p * B p) / mass p))).
    lra. }
  assert (Hi : 0 < / omega_fl fl p) by now apply Rinv_0_lt_compat.
  unfold Rdiv. nra.
Qed.

End RoundingAnalysis.

Lemma rounding_up_model (u : R) : 0 <= u -> rounding_model u (rounding_up u).
Proof.
  intros Hu. split; [exact Hu|]. intros x. unfold rounding_up.
  replace (x * (1 + u / 2) - x) with (x * (u / 2)) by ring.
  rewrite Rabs_mult, (Rabs_right (u / 2)) by lra.
  generalize (Rabs_pos x). nra.
Qed.

Lemma exact_trig_model (u : R) : 0 <= u -> trig_model u sin cos.
Proof.
  intros Hu a. unfold Rminus. rewrite !Rplus_opp_r, Rabs_R0. now split.
Qed.

(** Without rounding the rounded embedding is the general branch of
    [position_at]. *)
Lemma rounded_exact (p : Params) (tau : R) (old : THREE.Vector3) :
  mass p <> 0 -> degenerate p = false ->
  omega p = Num (omega_fl exact p) /\
  gyroradius p = Num (gyroradius_fl exact p) /\
  position_at p tau old =
    THREE.vec3 (Num (x_fl exact sin p tau)) (Num (y_fl exact cos p tau))
               (Num (v_parallel p * tau)).
Proof.
  intros Hm Hd. apply degenerate_false in Hd. destruct Hd as [Hw Hv].
  assert (Hcb : charge p <> 0 /\ B p <> 0).
  { split; intros E; apply Hw; apply omega_zero_iff; auto. }
  destruct Hcb as [Hc HB].
  destruct (position_general_real p tau old Hm Hc HB Hv) as (_ & Hr & Hpos).
  split; [now apply omega_finite|]. split; [exact Hr|]. exact Hpos.
Qed.


Lemma half_turn_general : degenerate (params half_turn) = false.
Proof.
  apply degenerate_false. split.
  - rewrite omega_finite by (simpl; lra). simpl.
    rewrite Rabs_unit_quotient. intros E. injection E as E. lra.
  - simpl. lra.
Qed.



End Gyration.

(** ** Trail array *)

Section Trail.

Context {A : Type}.

Implicit Types (p : A) (trail ps : list A).

Lemma trail_push_below p trail :
  (length trail < maxTrailPoints)%nat -> trail_push p trail = trail ++ [p].
Proof.
  intros H. unfold trail_push. rewrite length_app. cbn [length].
  destruct (Nat.ltb_spec maxTrailPoints (length trail + 1)); [lia | reflexivity].
Qed.

Lemma trail_push_full p oldest rest :
  (maxTrailPoints <= length (oldest :: rest))%nat ->
  trail_push p (oldest :: rest) = rest ++ [p].
Proof.
  intros H. unfold trail_push. rewrite length_app. cbn [length] in *.
  destruct (Nat.ltb_spec maxTrailPoints (S (length rest) + 1));
    [reflexivity | lia].
Qed.

Lemma trail_push_length p trail :
  (length trail <= maxTrailPoints)%nat ->
  length (trail_push p trail) = Nat.min (S (length trail)) maxTrailPoints.
Proof.
  intros H. destruct (Nat.eq_dec (length trail) maxTrailPoints) as [E | E].
  - destruct trail as [| oldest rest].
    + unfold maxTrailPoints in E. discriminate E.
    + rewrite trail_push_full by lia. rewrite length_app. cbn [length] in *. lia.
  - rewrite trail_push_below by lia. rewrite length_app. cbn [length]. lia.
Qed.

Lemma trail_push_bounded p trail :
  (length trail <= maxTrailPoints)%nat ->
  (length (trail_push p trail) <= maxTrailPoints)%nat.
Proof.
  intros H. rewrite trail_push_length by assumption. lia.
Qed.

(** One push keeps the newest [maxTrailPoints] of the old points and the
    new one. *)
Lemma trail_push_skipn p trail :
  (length trail <= maxTrailPoints)%nat ->
  trail_push p trail =
  skipn (length (trail ++ [p]) - maxTrailPoints) (trail ++ [p]).
Proof.
  intros H. rewrite length_app. cbn [length].
  destruct (Nat.eq_dec (length trail) maxTrailPoints) as [E | E].
  - destruct trail as [| oldest rest].
    + unfold maxTrailPoints in E. discriminate E.
    + rewrite trail_push_full by lia. cbn [length] in *.
      replace (S (length rest) + 1 - maxTrailPoints)%nat with 1%nat by lia.
      reflexivity.
  - rewrite trail_push_below by lia.
    replace (length trail + 1 - maxTrailPoints)%nat with 0%nat by lia.
    reflexivity.
Qed.

(** Pushing [ps] one by one keeps the newest [maxTrailPoints] of
    everything, in insertion order. *)
Lemma trail_push_all_skipn ps : forall trail,
  (length trail <= maxTrailPoints)%nat ->
  trail_push_all ps trail =
  skipn (length (trail ++ ps) - maxTrailPoints) (trail ++ ps).
Proof.
  induction ps as [| p ps IH]; intros trail H.
  - cbn [trail_push_all fold_left]. rewrite app_nil_r.
    replace (length trail - maxTrailPoints)%nat with 0%nat by lia.
    reflexivity.
  - cbn [trail_push_all fold_left]. fold (trail_push_all ps (trail_push p trail)).
    rewrite IH by now apply trail_push_bounded.
    rewrite (trail_push_skipn p trail H).
    assert (Hlen : length (trail ++ [p]) = S (length trail))
      by (rewrite length_app; cbn [length]; lia).
    replace (trail ++ p :: ps) with ((trail ++ [p]) ++ ps)
      by (rewrite <- app_assoc; reflexivity).
    set (l := trail ++ [p]) in *.
    set (k := (length l - maxTrailPoints)%nat).
    assert (Hk : (k <= length l)%nat) by (unfold k; lia).
    assert (Hsk : skipn k l ++ ps = skipn k (l ++ ps)).
    { rewrite skipn_app. replace (k - length l)%nat with 0%nat by lia.
      reflexivity. }
    rewrite Hsk, skipn_skipn. f_equal.
    rewrite length_skipn, !length_app. unfold k. lia.
Qed.

Lemma trail_push_all_length ps :
  length (trail_push_all ps []) = Nat.min (length ps) maxTrailPoints.
Proof.
  rewrite trail_push_all_skipn by (cbn; lia).
  rewrite length_skipn. cbn [app]. lia.
Qed.

End Trail.

Section TrailClaims.

Lemma clone_eq (v : THREE.Vector3) : THREE.clone v = v.
Proof. now destruct v. Qed.

Lemma handle_trail_bounded (e : Event) (s : State) :
  (length (trailPositions s) <= maxTrailPoints)%nat ->
  (length (trailPositions (handle e s)) <= maxTrailPoints)%nat.
Proof.
  intros H. destruct e as [delta | name value | checked | |]; cbn [handle].
  - unfold animate, follow.
    destruct (followCamera (params (updateParticle (advance delta s))));
      cbn [trailPositions updateParticle advance];
      now apply trail_push_bounded.
  - unfold on_slider_input, slider_listener.
    destruct (resetOnChange_of name); cbn [trailPositions clear with_params];
      [cbn [length]; lia | assumption].
  - exact H.
  - cbn. lia.
  - exact H.
Qed.

Lemma reachable_trail_bounded (s : State) :
  reachable s -> (length (trailPositions s) <= maxTrailPoints)%nat.
Proof.
  induction 1 as [| e s Hs IH].
  - cbn. lia.
  - now apply handle_trail_bounded.
Qed.

Lemma run_reachable (es : list Event) : forall s,
  reachable s -> reachable (run es s).
Proof.
  induction es as [| e es IH]; intros s Hs; cbn [run fold_left].
  - exact Hs.
  - apply IH. now constructor.
Qed.

(** C3.  The trail never holds more than 1000 points in any state the
    page can reach; [updateParticle] pushes the new position at the end
    and, when that makes more than 1000, drops exactly the oldest point;
    1500 points pushed into an empty trail leave the last 1000 of them, in
    insertion order. *)
Theorem C3_trail_buffer_bounded :
  maxTrailPoints = 1000%nat /\
  (forall s, reachable s -> (length (trailPositions s) <= 1000)%nat) /\
  (forall es, (length (trailPositions (run es init)) <= 1000)%nat) /\
  (forall s,
     trailPositions (updateParticle s) =
     trail_push (particle_position (updateParticle s)) (trailPositions s)) /\
  (forall (A : Type) (p : A) (trail : list A),
     (length trail < 1000)%nat -> trail_push p trail = trail ++ [p]) /\
  (forall (A : Type) (p oldest : A) (rest : list A),
     (1000 <= length (oldest :: rest))%nat ->
     trail_push p (oldest :: rest) = rest ++ [p]) /\
  (forall (A : Type) (ps : list A),
     length ps = 1500%nat ->
     length (trail_push_all ps []) = 1000%nat /\
     trail_push_all ps [] = skipn 500 ps).
Proof.
  split; [reflexivity|]. split; [|split; [|split; [|split; [|split]]]].
  - exact reachable_trail_bounded.
  - intros es. apply reachable_trail_bounded, run_reachable. constructor.
  - intros s. cbn [trailPositions updateParticle particle_position].
    now rewrite clone_eq.
  - intros A p trail H. now apply trail_push_below.
  - intros A p oldest rest H. now apply trail_push_full.
  - intros A ps H. split.
    + rewrite trail_push_all_length, H. reflexivity.
    + rewrite trail_push_all_skipn by (cbn; lia). cbn [app].
      rewrite H. reflexivity.
Qed.

(** The initial state is within the bound; a point pushed onto three
    comes last; a point pushed onto the full trail 0..999 evicts 0; the
    numbers 0 to 1499 pushed in order leave 500 to 1499. *)
Lemma C3_trail_buffer_bounded_witness :
  (length (trailPositions init) <= 1000)%nat /\
  trail_push 3%nat [0; 1; 2]%nat = [0; 1; 2; 3]%nat /\
  trail_push 1000%nat (0%nat :: seq 1 999) = seq 1 999 ++ [1000%nat] /\
  length (trail_push_all (seq 0 1500) []) = 1000%nat /\
  trail_push_all (seq 0 1500) [] = seq 500 1000.
Proof.
  destruct C3_trail_buffer_bounded
    as (_ & Hreach & _ & _ & Hbelow & Hfull & Hall).
  split; [apply Hreach; constructor|].
  split; [apply (Hbelow nat 3%nat [0; 1; 2]%nat); cbn [length]; lia|].
  split.
  { apply (Hfull nat 1000%nat 0%nat (seq 1 999)).
    cbn [length]. rewrite length_seq. lia. }
  destruct (Hall nat (seq 0 1500)) as [Hlen Hlast];
    [vm_compute; reflexivity|].
  split; [exact Hlen|]. rewrite Hlast. vm_compute. reflexivity.
Defined.

End TrailClaims.

(** ** Reset, sliders and the clock *)

Section Controls.

(** C6.  After [params.reset()], and so after a click on the reset
    button, the simulation time is 0 and the trail is empty, whatever the
    state was. *)
Theorem C6_reset_clears (s : State) :
  t (reset s) = 0 /\
  trailPositions (reset s) = [] /\
  length (trailPositions (reset s)) = 0%nat /\
  handle ResetClick s = reset s.
Proof.
  repeat split.
Qed.

(** C10.  An input event on the mass, charge, field, perpendicular or
    parallel velocity slider stores the value, sets the time to 0 and
    empties the trail; an input event on the speed slider stores the value
    and changes nothing else. *)
Theorem C10_reset_on_change_policy (name : ParamName) (value : R) (s : State) :
  (In name physics_sliders ->
   t (on_slider_input name value s) = 0 /\
   trailPositions (on_slider_input name value s) = [] /\
   params (on_slider_input name value s) = set_param name value (params s)) /\
  (name = Pspeed ->
   t (on_slider_input name value s) = t s /\
   trailPositions (on_slider_input name value s) = trailPositions s /\
   on_slider_input name value s =
     with_params (mkParams (mass (params s)) (charge (params s))
                           (B (params s)) (v_perp (params s))
                           (v_parallel (params s)) value
                           (followCamera (params s))) s).
Proof.
  split.
  - intros Hin. unfold physics_sliders in Hin. cbn [In] in Hin.
    destruct name; try (repeat split; fail).
    exfalso. intuition discriminate.
  - intros ->. repeat split.
Qed.

Lemma C10_reset_on_change_policy_witness :
  (t (on_slider_input Pcharge 2 (animate 1 init)) = 0 /\
   trailPositions (on_slider_input Pcharge 2 (animate 1 init)) = []) /\
  (t (on_slider_input Pspeed 2 (animate 1 init)) = t (animate 1 init) /\
   trailPositions (on_slider_input Pspeed 2 (animate 1 init)) =
     trailPositions (animate 1 init)).
Proof.
  split.
  - destruct (C10_reset_on_change_policy Pcharge 2 (animate 1 init))
      as [H _].
    destruct H as (Ht & Htrail & _); [cbn; tauto|]. now split.
  - destruct (C10_reset_on_change_policy Pspeed 2 (animate 1 init))
      as [_ H].
    destruct H as (Ht & Htrail & _); [reflexivity|]. now split.
Defined.

Lemma animate_time (delta : R) (s : State) :
  t (animate delta s) = t s + speed (params s) * delta.
Proof.
  unfold animate, follow.
  now destruct (followCamera (params (updateParticle (advance delta s)))).
Qed.

(** C9, as amended.  A frame advances the simulation time by exactly
    [speed * delta]; the time does not decrease when the speed and the
    frame delta are not negative, and it decreases when the speed is
    negative and the delta positive. *)
Theorem C9_time_advance (delta : R) (s : State) :
  t (animate delta s) = t s + speed (params s) * delta /\
  (0 <= speed (params s) -> 0 <= delta -> t s <= t (animate delta s)) /\
  (speed (params s) < 0 -> 0 < delta -> t (animate delta s) < t s).
Proof.
  rewrite animate_time. repeat split; intros; nra.
Qed.

Lemma C9_time_advance_witness :
  t init <= t (animate (/ 60) init) /\
  t (animate (/ 60) rewinding) < t rewinding.
Proof.
  destruct (C9_time_advance (/ 60) init) as (_ & Hup & _).
  destruct (C9_time_advance (/ 60) rewinding) as (_ & _ & Hdown).
  split; [apply Hup | apply Hdown]; simpl; lra.
Defined.

(** C9 as stated fails: with speed -1 a frame of one second takes the
    time from 0 to -1. *)
Lemma C9_counterexample :
  0 <= 1 /\
  t rewinding = 0 /\
  t (animate 1 rewinding) = -1 /\
  ~ (t rewinding <= t (animate 1 rewinding)).
Proof.
  rewrite animate_time. simpl. repeat split; try lra.
Qed.

End Controls.

(** ** Camera follow *)

Section Follow.

Lemma degToRad_20 : THREE.degToRad (Num 20) = Num (20 * (Math_PI / 180)).
Proof.
  unfold THREE.degToRad, JS.PI. rewrite div_finite by lra. reflexivity.
Qed.

Lemma fixedCameraOffset_value :
  fixedCameraOffset =
  THREE.vec3 (Num (-10)) (Num (10 * tan (20 * (Math_PI / 180)))) (Num 0).
Proof.
  unfold fixedCameraOffset. now rewrite degToRad_20.
Qed.

(** The vertical offset, 10 tan(20 degrees), is 3.639 to three decimals. *)
Lemma vertical_offset_bounds :
  3.639 < 10 * tan (20 * (Math_PI / 180)) < 3.640.
Proof.
  destruct PI_bounds as [Hp1 Hp2].
  set (a := 20 * (Math_PI / 180)).
  assert (Ha : 0.34906 < a < 0.34907) by (unfold a, Math_PI; lra).
  assert (Hlo : tan 0.34906 < tan a) by (apply tan_increasing; lra).
  assert (Hhi : tan a < tan 0.34907) by (apply tan_increasing; lra).
  destruct (sin_cos_enclosure 0.34906) as [[Hs1 _] [Hc0 Hc1]]; try lra.
  destruct (sin_cos_enclosure 0.34907) as [[_ Hs2] [Hc2 _]]; try lra.
  assert (L : 0.3639 < tan 0.34906).
  { unfold tan. apply Rmult_lt_reg_r with (cos 0.34906); [lra|].
    unfold Rdiv. rewrite Rmult_assoc, Rinv_l by lra. lra. }
  assert (U : tan 0.34907 < 0.3640).
  { unfold tan. apply Rmult_lt_reg_r with (cos 0.34907); [lra|].
    unfold Rdiv. rewrite Rmult_assoc, Rinv_l by lra. lra. }
  lra.
Qed.

Lemma follow_enabled (s : State) :
  followCamera (params s) = true ->
  camera_position (follow s) = THREE.add (particle_position s) fixedCameraOffset /\
  camera_lookAt (follow s) = particle_position s /\
  particle_position (follow s) = particle_position s.
Proof.
  intros H. unfold follow. rewrite H. cbn [camera_position camera_lookAt
    particle_position]. unfold THREE.copy.
  now destruct (particle_position s).
Qed.

Lemma follow_assign_spec (s : State) :
  camera_position (follow_assign s) =
    THREE.add (particle_position s) fixedCameraOffset /\
  camera_lookAt (follow_assign s) = particle_position s /\
  controls_target (follow_assign s) = particle_position s /\
  particle_position (follow_assign s) = particle_position s.
Proof.
  unfold follow_assign, THREE.copy.
  cbn [camera_position camera_lookAt controls_target particle_position].
  now destruct (particle_position s).
Qed.

Lemma follow_with_spec
    (update : THREE.Vector3 -> THREE.Vector3 -> THREE.Vector3) (s : State) :
  followCamera (params s) = true ->
  camera_position (follow_with update s) =
    update (THREE.add (particle_position s) fixedCameraOffset)
           (particle_position s) /\
  camera_lookAt (follow_with update s) = particle_position s /\
  controls_target (follow_with update s) = particle_position s /\
  particle_position (follow_with update s) = particle_position s.
Proof.
  intros Hf. unfold follow_with. rewrite Hf.
  cbn [camera_position camera_lookAt controls_target particle_position].
  destruct (follow_assign_spec s) as (Hc & _ & Ht & Hp).
  now rewrite Hc, Ht, Hp.
Qed.

(** With an [update] that returns the camera position it was given, the
    follow block is [follow]. *)
Lemma follow_with_exact (s : State) :
  follow_with (fun position _ => position) s = follow s.
Proof.
  unfold follow_with, follow, follow_assign, THREE.copy.
  destruct (followCamera (params s)); [|reflexivity].
  cbn [t params trailPositions particle_position camera_position
       camera_lookAt controls_target trail_geometry].
  now destruct (particle_position s).
Qed.




End Follow.

(** * Further properties of the script *)

(** ** Frames *)

Section Frames.

(** The position depends on the parameters only through [omega], [v_perp]
    and [v_parallel]. *)
Lemma position_at_ext (p q : Params) (tau : R) (old old' : THREE.Vector3) :
  omega p = omega q -> v_perp p = v_perp q -> v_parallel p = v_parallel q ->
  position_at p tau old = position_at q tau old'.
Proof.
  intros Hw Hv Hz. unfold position_at, degenerate, gyroradius, THREE.set.
  now rewrite Hw, Hv, Hz.
Qed.

Lemma animate_params (delta : R) (s : State) :
  params (animate delta s) = params s.
Proof.
  unfold animate, follow.
  now destruct (followCamera (params (updateParticle (advance delta s)))).
Qed.

Lemma animate_particle (delta : R) (s : State) :
  particle_position (animate delta s) =
  position_at (params s) (t s + speed (params s) * delta) origin.
Proof.
  unfold animate, follow.
  now destruct (followCamera (params (updateParticle (advance delta s)))).
Qed.

Lemma animate_trail (delta : R) (s : State) :
  trailPositions (animate delta s) =
  trail_push (position_at (params s) (t s + speed (params s) * delta) origin)
             (trailPositions s).
Proof.
  unfold animate, follow.
  destruct (followCamera (params (updateParticle (advance delta s))));
    cbn [trailPositions updateParticle advance params t];
    now rewrite clone_eq.
Qed.

Lemma animate_geometry (delta : R) (s : State) :
  trail_geometry (animate delta s) = trailPositions (animate delta s).
Proof.
  unfold animate, follow.
  now destruct (followCamera (params (updateParticle (advance delta s)))).
Qed.

Lemma run_frames_cons (d : R) (ds : list R) (s : State) :
  run (frames (d :: ds)) s = run (frames ds) (animate d s).
Proof. reflexivity. Qed.

Lemma run_frames_params (ds : list R) : forall s,
  params (run (frames ds) s) = params s.
Proof.
  induction ds as [| d ds IH]; intros s; [reflexivity|].
  rewrite run_frames_cons, IH. apply animate_params.
Qed.

Lemma run_frames_time (ds : list R) : forall s,
  t (run (frames ds) s) = t s + speed (params s) * elapsed ds.
Proof.
  induction ds as [| d ds IH]; intros s.
  - cbn. ring.
  - rewrite run_frames_cons, IH, animate_params, animate_time.
    cbn [elapsed fold_right]. fold (elapsed ds). ring.
Qed.

Lemma run_frames_trail (ds : list R) : forall s,
  trailPositions (run (frames ds) s) =
  trail_push_all
    (map (fun tau => position_at (params s) tau origin)
         (frame_times (t s) (speed (params s)) ds))
    (trailPositions s).
Proof.
  induction ds as [| d ds IH]; intros s; [reflexivity|].
  rewrite run_frames_cons, IH, animate_params, animate_time, animate_trail.
  reflexivity.
Qed.

Lemma frame_times_length (ds : list R) : forall t0 sp,
  length (frame_times t0 sp ds) = length ds.
Proof.
  induction ds as [| d ds IH]; intros t0 sp; cbn; [reflexivity|].
  now rewrite IH.
Qed.

Lemma frame_times_paused (ds : list R) : forall t0,
  frame_times t0 0 ds = repeat t0 (length ds).
Proof.
  induction ds as [| d ds IH]; intros t0; cbn [frame_times length repeat];
    [reflexivity|].
  replace (t0 + 0 * d) with t0 by ring. now rewrite IH.
Qed.

Lemma skipn_repeat_all {A : Type} (a : A) (n k : nat) :
  skipn k (repeat a n) = repeat a (n - k).
Proof.
  revert k. induction n as [| n IH]; intros k.
  - cbn. now rewrite skipn_nil.
  - destruct k as [| k]; [reflexivity|]. cbn [repeat skipn]. apply IH.
Qed.

Lemma trail_push_last {A : Type} (p d : A) (trail : list A) :
  last (trail_push p trail) d = p.
Proof.
  unfold trail_push. rewrite length_app. cbn [length].
  destruct (Nat.ltb_spec maxTrailPoints (length trail + 1)).
  - destruct trail as [| oldest rest].
    + unfold maxTrailPoints in *. cbn in *. lia.
    + cbn [app tl]. apply last_last.
  - apply last_last.
Qed.

Lemma trail_push_Forall {A : Type} (P : A -> Prop) (p : A) (trail : list A) :
  Forall P trail -> P p -> Forall P (trail_push p trail).
Proof.
  intros Htrail Hp. unfold trail_push.
  assert (Hall : Forall P (trail ++ [p])).
  { apply Forall_app. split; [assumption | now constructor]. }
  destruct (maxTrailPoints <? length (trail ++ [p]))%nat; [|exact Hall].
  destruct (trail ++ [p]); [constructor | now inversion Hall].
Qed.

(** The point a frame pushes is never the one it evicts: after every
    frame the last point of the trail is the position of the particle, and
    the line drawn is the trail. *)
Theorem newest_trail_point_is_particle (delta : R) (s : State) (d : THREE.Vector3) :
  last (trailPositions (animate delta s)) d = particle_position (animate delta s) /\
  trailPositions (animate delta s) <> [] /\
  trail_geometry (animate delta s) = trailPositions (animate delta s).
Proof.
  rewrite animate_geometry, animate_trail, animate_particle.
  split; [apply trail_push_last|]. split; [|reflexivity].
  intros E.
  assert (H := trail_push_last
                 (position_at (params s) (t s + speed (params s) * delta) origin)
                 (THREE.vec3 NaN NaN NaN) (trailPositions s)).
  assert (H' := trail_push_last
                 (position_at (params s) (t s + speed (params s) * delta) origin)
                 origin (trailPositions s)).
  rewrite E in H, H'. cbn in H, H'. rewrite <- H in H'. discriminate H'.
Qed.


(** After a reset, the trail is the trajectory sampled at the frame
    times: the positions of the closed form at the successive simulation
    times, the last 1000 of them, oldest first. *)
Theorem trail_samples_trajectory (s : State) (ds : list R) :
  trailPositions (run (frames ds) (reset s)) =
    skipn (length ds - 1000)
      (map (fun tau => position_at (params s) tau origin)
           (frame_times 0 (speed (params s)) ds)) /\
  length (trailPositions (run (frames ds) (reset s))) =
    Nat.min (length ds) 1000.
Proof.
  rewrite run_frames_trail. cbn [reset clear params t trailPositions].
  split.
  - rewrite trail_push_all_skipn by (cbn; lia). cbn [app].
    now rewrite length_map, frame_times_length.
  - now rewrite trail_push_all_length, length_map, frame_times_length.
Qed.

(** With speed 0 the frames keep pushing the same point: after 1000
    frames or more the whole trail is 1000 copies of the position of the
    particle, and the time has not moved. *)
Theorem paused_trail_collapses (s : State) (ds : list R) :
  speed (params s) = 0 ->
  (length (trailPositions s) <= 1000)%nat ->
  (1000 <= length ds)%nat ->
  t (run (frames ds) s) = t s /\
  trailPositions (run (frames ds) s) =
    repeat (position_at (params s) (t s) origin) 1000.
Proof.
  intros Hsp Hlen Hn. split.
  - rewrite run_frames_time, Hsp. ring.
  - rewrite run_frames_trail, Hsp, frame_times_paused, map_repeat.
    rewrite trail_push_all_skipn by exact Hlen.
    rewrite skipn_app, length_app, repeat_length.
    assert (Hall : skipn (length (trailPositions s) + length ds - maxTrailPoints)
                     (trailPositions s) = []).
    { apply skipn_all2. unfold maxTrailPoints. lia. }
    rewrite Hall. cbn [app]. rewrite skipn_repeat_all. f_equal.
    unfold maxTrailPoints. lia.
Qed.

Lemma paused_trail_collapses_witness :
  let paused := with_params (mkParams 1 1 1 1 1 0 false) init in
  trailPositions (run (frames (repeat 1 1000)) paused) =
    repeat (position_at (params paused) (t paused) origin) 1000.
Proof.
  intros paused.
  apply (paused_trail_collapses paused (repeat 1 1000)).
  - reflexivity.
  - cbn. lia.
  - rewrite repeat_length. lia.
Defined.

End Frames.

(** ** Invariants of the page *)

Section Invariants.

Lemma handle_consistent (e : Event) (s : State) :
  (length (trailPositions s) <= maxTrailPoints)%nat ->
  consistent s -> consistent (handle e s).
Proof.
  intros Hlen (Hgeo & Hbound & Hall).
  destruct e as [delta | name value | checked | |]; cbn [handle].
  - unfold consistent.
    rewrite animate_geometry, animate_params, animate_trail.
    split; [now right|]. split.
    + now apply trail_push_bounded.
    + apply trail_push_Forall; [exact Hall|].
      now exists (t s + speed (params s) * delta).
  - unfold on_slider_input, slider_listener.
    destruct name; cbn [resetOnChange_of];
      try (split; [now left | split; [exact Hbound | constructor]]).
    split; [exact Hgeo|]. split; [exact Hbound|]. exact Hall.
  - split; [exact Hgeo|]. split; [exact Hbound|]. exact Hall.
  - split; [now left|]. split; [exact Hbound | constructor].
  - split; [exact Hgeo|]. split; [exact Hbound|]. exact Hall.
Qed.

Lemma reachable_consistent (s : State) : reachable s -> consistent s.
Proof.
  induction 1 as [| e s Hs IH].
  - split; [now left|]. split; [cbn; lia | constructor].
  - apply handle_consistent; [now apply reachable_trail_bounded | exact IH].
Qed.

(** In every state the page can reach, the line on screen shows the trail
    or, right after the trail was emptied and until the next frame, the
    points of before; it never has more than 1000 points. *)
Theorem drawn_line_is_trail_or_stale (s : State) :
  reachable s ->
  (trailPositions s = [] \/ trail_geometry s = trailPositions s) /\
  (length (trail_geometry s) <= 1000)%nat.
Proof.
  intros Hs. destruct (reachable_consistent s Hs) as (Hgeo & Hbound & _).
  split; [|exact Hbound]. destruct Hgeo as [H | H]; [now left | now right].
Qed.

Lemma drawn_line_is_trail_or_stale_witness :
  (trailPositions (reset (animate 1 init)) = [] \/
   trail_geometry (reset (animate 1 init)) =
     trailPositions (reset (animate 1 init))) /\
  (length (trail_geometry (reset (animate 1 init))) <= 1000)%nat.
Proof.
  apply (drawn_line_is_trail_or_stale (handle ResetClick (handle (Frame 1) init))).
  repeat constructor.
Defined.

(** A reset leaves the line on screen as it was: the points of the old
    trail stay drawn until the next frame. *)
Lemma reset_keeps_geometry (delta : R) (s : State) :
  trail_geometry (reset (animate delta s)) = trailPositions (animate delta s) /\
  trailPositions (reset (animate delta s)) = [].
Proof.
  split; [|reflexivity]. cbn [reset clear trail_geometry].
  apply animate_geometry.
Qed.

(** In every state the page can reach, every point of the trail is a
    position of the closed form under the current parameters: a change of
    mass, charge, field or velocity empties the trail, and the other
    handlers do not touch what the trajectory depends on. *)
Theorem trail_follows_current_parameters (s : State) :
  reachable s ->
  Forall (fun q => exists tau, q = position_at (params s) tau origin)
         (trailPositions s).
Proof.
  intros Hs. now destruct (reachable_consistent s Hs) as (_ & _ & Hall).
Qed.

Lemma trail_follows_current_parameters_witness :
  Forall (fun q =>
            exists tau,
              q = position_at (params (run [Frame 1; SliderInput Pspeed 3;
                                          Frame 1] init)) tau origin)
         (trailPositions (run [Frame 1; SliderInput Pspeed 3; Frame 1] init)).
Proof.
  apply (trail_follows_current_parameters
           (run [Frame 1; SliderInput Pspeed 3; Frame 1] init)).
  apply run_reachable. constructor.
Defined.


End Invariants.

(** ** Shape of the trajectory *)

Section Shape.

Variable p : Params.

Lemma general_params :
  mass p <> 0 -> degenerate p = false ->
  charge p <> 0 /\ B p <> 0 /\ v_perp p <> 0.
Proof.
  intros Hm Hd. apply degenerate_false in Hd. destruct Hd as [Hw Hv].
  repeat split; try assumption; intros E; apply Hw; apply omega_zero_iff; auto.
Qed.

Lemma position_degenerate_at (tau : R) (old : THREE.Vector3) :
  degenerate p = true ->
  position_at p tau old =
  THREE.vec3 (Num (v_perp p * tau)) (Num 0) (Num (v_parallel p * tau)).
Proof.
  intros Hd. unfold position_at. now rewrite Hd.
Qed.

Lemma position_real (tau : R) (old : THREE.Vector3) :
  mass p <> 0 ->
  exists xr yr zr : R,
    position_at p tau old = THREE.vec3 (Num xr) (Num yr) (Num zr).
Proof.
  intros Hm. destruct (degenerate p) eqn:Hd.
  - rewrite position_degenerate_at by assumption.
    do 3 eexists. reflexivity.
  - destruct (general_params Hm Hd) as (Hc & HB & Hv).
    destruct (position_general_real p tau old Hm Hc HB Hv) as (_ & _ & Hpos).
    rewrite Hpos. do 3 eexists. reflexivity.
Qed.

(** With a zero mass and a perpendicular velocity, [omega] is infinite or
    NaN and the x and y the script computes are NaN at every time, while z
    is still [v_parallel * t]. *)
Theorem position_zero_mass (tau : R) (old : THREE.Vector3) :
  mass p = 0 -> v_perp p <> 0 ->
  (omega p = PInf \/ omega p = NaN) /\
  THREE.x (position_at p tau old) = NaN /\
  THREE.y (position_at p tau old) = NaN /\
  THREE.z (position_at p tau old) = Num (v_parallel p * tau).
Proof.
  intros Hm Hv.
  assert (Hw : omega p = PInf \/ omega p = NaN).
  { rewrite omega_zero_mass by assumption.
    destruct (JS.Reqb (charge p * B p) 0); [now right | now left]. }
  split; [exact Hw|].
  assert (Hd : degenerate p = false).
  { apply degenerate_false. split; [|assumption].
    destruct Hw as [-> | ->]; discriminate. }
  unfold position_at. rewrite Hd. cbv zeta. unfold gyroradius, THREE.set.
  cbn [THREE.x THREE.y THREE.z].
  destruct Hw as [-> | ->].
  - cbn [JS.div JS.mul JS.is_nan JS.sign orb].
    destruct (JS.Reqb tau 0); [repeat split|].
    destruct (JS.Rltb 0 tau); repeat split.
  - repeat split.
Qed.

(** In the general branch with a nonzero mass and a positive
    perpendicular velocity the particle stays in the strip
    -r <= x <= r, -2r <= y <= 0, r being the gyroradius. *)
Theorem trajectory_bounds (tau : R) (old : THREE.Vector3) :
  mass p <> 0 -> degenerate p = false -> 0 < v_perp p ->
  exists r xr yr : R,
    0 < r /\ gyroradius p = Num r /\
    THREE.x (position_at p tau old) = Num xr /\
    THREE.y (position_at p tau old) = Num yr /\
    - r <= xr <= r /\ - (2 * r) <= yr <= 0.
Proof.
  intros Hm Hd Hpos.
  destruct (general_params Hm Hd) as (Hc & HB & Hv).
  destruct (position_general_real p tau old Hm Hc HB Hv) as (Hw0 & Hr & Hp).
  set (w := Rabs (charge p * B p / mass p)) in *.
  set (r := v_perp p / w) in *.
  assert (Hwpos : 0 < w).
  { unfold w in *. generalize (Rabs_pos (charge p * B p / mass p)). lra. }
  assert (Hrpos : 0 < r) by (unfold r; now apply Rdiv_lt_0_compat).
  exists r, (r * sin (w * tau)), (- r * (1 - cos (w * tau))).
  rewrite Hp. cbn [THREE.x THREE.y].
  generalize (SIN_bound (w * tau)), (COS_bound (w * tau)).
  intros [Hs1 Hs2] [Hc1 Hc2].
  repeat split; try assumption; nra.
Qed.

(** With a nonzero mass the trajectory starts at the origin in both
    branches: at time 0 the position is (0, 0, 0). *)
Theorem trajectory_starts_at_origin (old : THREE.Vector3) :
  mass p <> 0 -> position_at p 0 old = origin.
Proof.
  intros Hm. destruct (degenerate p) eqn:Hd.
  - rewrite position_degenerate_at by assumption. unfold origin.
    f_equal; f_equal; ring.
  - destruct (general_params Hm Hd) as (Hc & HB & Hv).
    destruct (position_general_real p 0 old Hm Hc HB Hv) as (_ & _ & Hpos).
    rewrite Hpos, Rmult_0_r, sin_0, cos_0. unfold origin.
    f_equal; f_equal; ring.
Qed.

End Shape.

Lemma trajectory_bounds_witness :
  exists r xr yr : R,
    0 < r /\ gyroradius (params half_turn) = Num r /\
    THREE.x (position_at (params half_turn) 1 origin) = Num xr /\
    THREE.y (position_at (params half_turn) 1 origin) = Num yr /\
    - r <= xr <= r /\ - (2 * r) <= yr <= 0.
Proof.
  apply (trajectory_bounds (params half_turn) 1 origin).
  - simpl. lra.
  - exact half_turn_general.
  - simpl. lra.
Defined.

Lemma position_zero_mass_witness :
  THREE.x (position_at (mkParams 0 1 1 1 1 1 false) 1 origin) = NaN /\
  THREE.y (position_at (mkParams 0 1 1 1 1 1 false) 1 origin) = NaN.
Proof.
  destruct (position_zero_mass (mkParams 0 1 1 1 1 1 false) 1 origin)
    as (_ & Hx & Hy & _); [reflexivity | simpl; lra |].
  now split.
Defined.

Lemma trajectory_starts_at_origin_witness :
  position_at (params init) 0 origin = origin.
Proof.
  apply (trajectory_starts_at_origin (params init) origin). simpl. lra.
Defined.

(** ** Signs of the parameters *)

Section Signs.

Lemma abs_div_opp_l (a b : R) :
  JS.abs (JS.div (Num (- a)) (Num b)) = JS.abs (JS.div (Num a) (Num b)).
Proof.
  cbn [JS.div JS.sign]. destruct (Req_dec_T b 0) as [Hb | Hb].
  - apply Reqb_true in Hb. rewrite Hb.
    destruct (Req_dec_T a 0) as [Ha | Ha].
    + subst a. now rewrite Ropp_0.
    + assert (Ha' : - a <> 0) by lra.
      apply Reqb_false in Ha, Ha'. rewrite Ha, Ha'.
      now destruct (JS.Rltb 0 (- a)), (JS.Rltb 0 a).
  - assert (Hb' := Hb). apply Reqb_false in Hb'. rewrite Hb'.
    cbn [JS.abs]. f_equal.
    replace (- a / b) with (- (a / b)) by (field; exact Hb).
    apply Rabs_Ropp.
Qed.

Lemma abs_div_opp_r (a b : R) :
  JS.abs (JS.div (Num a) (Num (- b))) = JS.abs (JS.div (Num a) (Num b)).
Proof.
  cbn [JS.div JS.sign]. destruct (Req_dec_T b 0) as [Hb | Hb].
  - subst b. now rewrite Ropp_0.
  - assert (Hb' : - b <> 0) by lra.
    assert (Hb1 := Hb). assert (Hb2 := Hb').
    apply Reqb_false in Hb1, Hb2. rewrite Hb1, Hb2.
    cbn [JS.abs]. f_equal.
    replace (a / - b) with (- (a / b)) by (field; exact Hb).
    apply Rabs_Ropp.
Qed.

(** [Math.abs] on line 63 drops the signs of charge, field and mass:
    negating any of them leaves every computed position as it is, so a
    negative charge gyrates the same way round as a positive one. *)
Theorem position_ignores_signs (p : Params) (tau : R) (old : THREE.Vector3) :
  position_at (mkParams (mass p) (- charge p) (B p) (v_perp p)
                        (v_parallel p) (speed p) (followCamera p)) tau old =
    position_at p tau old /\
  position_at (mkParams (mass p) (charge p) (- B p) (v_perp p)
                        (v_parallel p) (speed p) (followCamera p)) tau old =
    position_at p tau old /\
  position_at (mkParams (- mass p) (charge p) (B p) (v_perp p)
                        (v_parallel p) (speed p) (followCamera p)) tau old =
    position_at p tau old.
Proof.
  repeat split; apply position_at_ext; try reflexivity;
    unfold omega; cbn [JS.mul mass charge B].
  - replace (- charge p * B p) with (- (charge p * B p)) by ring.
    apply abs_div_opp_l.
  - replace (charge p * - B p) with (- (charge p * B p)) by ring.
    apply abs_div_opp_l.
  - apply abs_div_opp_r.
Qed.

(** With a nonzero mass, negating the perpendicular velocity mirrors the
    trajectory through the z axis: x and y change sign, z does not. *)
Theorem negated_v_perp_mirrors (p : Params) (tau : R) (old : THREE.Vector3) :
  mass p <> 0 ->
  let q := mkParams (mass p) (charge p) (B p) (- v_perp p)
                    (v_parallel p) (speed p) (followCamera p) in
  THREE.x (position_at q tau old) = JS.neg (THREE.x (position_at p tau old)) /\
  THREE.y (position_at q tau old) = JS.neg (THREE.y (position_at p tau old)) /\
  THREE.z (position_at q tau old) = THREE.z (position_at p tau old).
Proof.
  intros Hm q.
  assert (Hw : omega q = omega p) by reflexivity.
  destruct (degenerate p) eqn:Hd.
  - assert (Hdq : degenerate q = true).
    { apply degenerate_true. apply degenerate_true in Hd. rewrite Hw.
      destruct Hd as [H | H]; [now left | right]. cbn. rewrite H. ring. }
    rewrite !position_degenerate_at by assumption.
    cbn [THREE.x THREE.y THREE.z JS.neg q v_perp v_parallel].
    repeat split; f_equal; ring.
  - destruct (general_params p Hm Hd) as (Hc & HB & Hv).
    destruct (position_general_real p tau old Hm Hc HB Hv) as (Hw0 & _ & Hp).
    assert (Hvq : v_perp q <> 0) by (cbn; lra).
    destruct (position_general_real q tau old Hm Hc HB Hvq) as (_ & _ & Hq).
    rewrite Hp, Hq.
    cbn [THREE.x THREE.y THREE.z JS.neg q v_perp v_parallel mass charge B].
    repeat split; f_equal; field; exact Hw0.
Qed.

Lemma negated_v_perp_mirrors_witness :
  THREE.x (position_at (params backwards) 1 origin) =
  JS.neg (THREE.x (position_at (params half_turn) 1 origin)).
Proof.
  destruct (negated_v_perp_mirrors (params half_turn) 1 origin) as (Hx & _).
  - simpl. lra.
  - exact Hx.
Defined.

End Signs.

(** ** Camera, sliders and viewport *)

Section Handlers.

Lemma animate_follow_off (delta : R) (s : State) :
  followCamera (params s) = false ->
  camera_position (animate delta s) = camera_position s /\
  camera_lookAt (animate delta s) = camera_lookAt s /\
  controls_target (animate delta s) = controls_target s.
Proof.
  intros Hf. unfold animate, follow.
  cbn [params updateParticle advance]. rewrite Hf. repeat split.
Qed.



Lemma follow_controls_target (s : State) :
  followCamera (params s) = true ->
  controls_target (follow s) = particle_position s.
Proof.
  intros H. unfold follow. rewrite H. cbn [controls_target].
  unfold THREE.copy. now destruct (particle_position s).
Qed.




(** Sliders do not interfere: on one slider the last value wins, and
    input on two different sliders gives the same state in either order. *)
Theorem slider_inputs_compose (n1 n2 : ParamName) (v1 v2 : R) (s : State) :
  on_slider_input n1 v2 (on_slider_input n1 v1 s) = on_slider_input n1 v2 s /\
  (n1 <> n2 ->
   on_slider_input n1 v1 (on_slider_input n2 v2 s) =
   on_slider_input n2 v2 (on_slider_input n1 v1 s)).
Proof.
  split.
  - unfold on_slider_input, slider_listener.
    destruct n1; reflexivity.
  - intros Hne. unfold on_slider_input, slider_listener.
    destruct n1, n2; try reflexivity; contradiction.
Qed.

Lemma slider_inputs_compose_witness :
  on_slider_input Pspeed 2 (on_slider_input Pmass 3 (animate 1 init)) =
  on_slider_input Pmass 3 (on_slider_input Pspeed 2 (animate 1 init)).
Proof.
  destruct (slider_inputs_compose Pspeed Pmass 2 3 (animate 1 init)) as [_ H].
  apply H. discriminate.
Defined.

(** [onWindowResize] sets the aspect ratio to width over height; a
    container of height 0 makes it infinite, or NaN when the width is 0
    too, and the script stores that value as it is. *)
Theorem resize_aspect (c : Container) (v : Viewport) :
  (clientHeight c <> 0%nat ->
   camera_aspect (onWindowResize c v) =
     Num (INR (clientWidth c) / INR (clientHeight c))) /\
  (clientHeight c = 0%nat -> clientWidth c <> 0%nat ->
   camera_aspect (onWindowResize c v) = PInf) /\
  (clientHeight c = 0%nat -> clientWidth c = 0%nat ->
   camera_aspect (onWindowResize c v) = NaN).
Proof.
  unfold onWindowResize. cbn [camera_aspect]. repeat split.
  - intros Hh. apply div_finite. now apply not_0_INR.
  - intros Hh Hw. rewrite Hh. cbn [INR JS.div JS.sign].
    rewrite Reqb_refl.
    assert (Hpos : 0 < INR (clientWidth c)) by (apply lt_0_INR; lia).
    assert (Hne : JS.Reqb (INR (clientWidth c)) 0 = false)
      by (apply Reqb_false; lra).
    apply Rltb_true in Hpos. now rewrite Hne, Hpos.
  - intros Hh Hw. rewrite Hh, Hw. cbn [INR JS.div JS.sign].
    now rewrite Reqb_refl.
Qed.

Lemma resize_aspect_witness :
  camera_aspect (onWindowResize (mkContainer 800 600) (init_viewport (mkContainer 0 0))) =
    Num (INR 800 / INR 600) /\
  camera_aspect (onWindowResize (mkContainer 800 0) (init_viewport (mkContainer 0 0))) =
    PInf /\
  camera_aspect (onWindowResize (mkContainer 0 0) (init_viewport (mkContainer 800 600))) =
    NaN.
Proof.
  split; [|split].
  - destruct (resize_aspect (mkContainer 800 600) (init_viewport (mkContainer 0 0)))
      as (H & _). apply H. discriminate.
  - destruct (resize_aspect (mkContainer 800 0) (init_viewport (mkContainer 0 0)))
      as (_ & H & _). apply H; [reflexivity | discriminate].
  - destruct (resize_aspect (mkContainer 0 0) (init_viewport (mkContainer 800 600)))
      as (_ & _ & H). apply H; reflexivity.
Defined.

(** The observer callback resizes once per entry whose target is the
    scene container, and resizing is idempotent: the outcome is that of one
    [onWindowResize] when an entry matches and nothing otherwise; the call
    on line 146 changes nothing when the container has kept its size since
    the set-up. *)
Theorem resize_callback_collapses
    (sceneContainer : Element) (c : Container) (entries : list Element)
    (v : Viewport) :
  resize_callback sceneContainer c entries v =
    (if existsb (fun target => Nat.eqb target sceneContainer) entries
     then onWindowResize c v else v) /\
  onWindowResize c (onWindowResize c v) = onWindowResize c v /\
  onWindowResize c (init_viewport c) = init_viewport c.
Proof.
  split; [|split; reflexivity].
  unfold resize_callback. revert v.
  induction entries as [| e entries IH]; intros v; [reflexivity|].
  cbn [fold_left existsb]. rewrite IH.
  destruct (Nat.eqb e sceneContainer); cbn [orb]; [|reflexivity].
  now destruct (existsb (fun target => Nat.eqb target sceneContainer) entries).
Qed.

End Handlers.
